(** * CRC-16: a shallow embedding of [crc16.go] and its properties

    The Go package computes table-driven CRC-16 checksums.  The embedding
    follows the source function by function:

    - a [uint16] is a [Z] in [0, 2^16); Go's operators on it are written out
      with [Z.land], [Z.lxor] and [Z.shiftr], and conversions ([uint16(i)],
      [byte(crc)]) are the truncations Go performs;
    - a [[]byte] is a [list Byte.byte];
    - a [Table] ([[256]uint16]) is a list of 256 entries, read with stdpp's
      list lookup and written with stdpp's list insert;
    - a [*Table] is taken to be non-nil and is represented by the table it
      points to: nothing in the package writes to a table once [makeTable]
      has returned it;
    - the methods of [*digest] are computations in a small state monad over
      the record [digest]. *)

From Stdlib Require Import ZArith Lia Strings.Byte.
From stdpp Require Import base list.

Local Open Scope Z_scope.

(** ** Unsigned 16-bit integers and bytes *)

Module U16.

Definition modulus : Z := 2 ^ 16.
Definition mask : Z := 0xFFFF.

(** The values a Go [uint16] can hold. *)
Definition valid (x : Z) : Prop := 0 <= x < modulus.

Definition validb (x : Z) : bool := (0 <=? x) && (x <? modulus).

(** [uint16(i)] for an [int] [i]: conversion truncates to 16 bits. *)
Definition of_int (i : Z) : Z := i mod modulus.

(** [^x] on a [uint16]: Go defines it as [m ^ x] with [m] all ones. *)
Definition not (x : Z) : Z := Z.lxor mask x.

(** [x ^ y], [x & y], [x >> n] on [uint16] operands. *)
Definition xor (x y : Z) : Z := Z.lxor x y.
Definition and (x y : Z) : Z := Z.land x y.
Definition shr (x n : Z) : Z := Z.shiftr x n.

End U16.

Module U8.

Definition modulus : Z := 2 ^ 8.

Definition valid (x : Z) : Prop := 0 <= x < modulus.

(** The numeric value of a byte of the input. *)
Definition to_Z (b : byte) : Z := Z.of_N (Byte.to_N b).

(** [byte(x)] for a [uint16] [x], as a number: the low eight bits. *)
Definition of_u16 (x : Z) : Z := x mod modulus.

(** [byte(x)] as an element of a [[]byte]. *)
Definition byte_of (x : Z) : byte :=
  match Byte.of_N (Z.to_N (of_u16 x)) with
  | Some b => b
  | None => x00
  end.

Definition xor (x y : Z) : Z := Z.lxor x y.

End U8.

(** ** The package *)

(** [const Size = 2] *)
Definition Size : Z := 2.

(** The polynomial constants. *)
Definition ANSI : Z := 0x8005.
Definition CCITT : Z := 0x1021.

(** [type Table [256]uint16] *)
Abbreviation Table := (list Z).

Definition table_len : nat := 256.

(** What the Go type guarantees of a [Table] value. *)
Definition wf_table (t : Table) : Prop :=
  length t = table_len /\ Forall U16.valid t.

(** The same test as a function, for concrete tables. *)
Definition wf_tableb (t : Table) : bool :=
  (length t =? table_len)%nat && forallb U16.validb t.

(** [new(Table)]: the zero value of the array type. *)
Definition new_Table : Table := replicate table_len 0.

(** [t[i]] for [i] within the array; the fallback [0] is never reached on a
    table of 256 entries indexed by a byte. *)
Definition index (t : Table) (i : Z) : Z := default 0 (t !! Z.to_nat i).

(** [t[i] = v] *)
Definition assign (t : Table) (i : Z) (v : Z) : Table := <[Z.to_nat i := v]> t.

(** One pass of the inner loop of [makeTable]:
[[
    if crc&1 == 1 { crc = (crc >> 1) ^ poly } else { crc >>= 1 }
]] *)
Definition shift_step (poly crc : Z) : Z :=
  if U16.and crc 1 =? 1
  then U16.xor (U16.shr crc 1) poly
  else U16.shr crc 1.

(** [for j := 0; j < 8; j++ { ... }], counting the passes left. *)
Fixpoint shift_loop (passes : nat) (poly crc : Z) : Z :=
  match passes with
  | O => crc
  | S k => shift_loop k poly (shift_step poly crc)
  end.

(** The body of the outer loop of [makeTable] at index [i]. *)
Definition makeTable_body (poly : Z) (t : Table) (i : Z) : Table :=
  let crc := U16.of_int i in
  let crc := shift_loop 8 poly crc in
  assign t i crc.

(** [for i := 0; i < 256; i++ { ... }] from [i = lo], [n] iterations. *)
Fixpoint makeTable_loop (poly : Z) (n : nat) (i : Z) (t : Table) : Table :=
  match n with
  | O => t
  | S k => makeTable_loop poly k (i + 1) (makeTable_body poly t i)
  end.

(** [func makeTable(poly uint16) *Table] *)
Definition makeTable (poly : Z) : Table :=
  makeTable_loop poly 256 0 new_Table.

(** [var ANSITable = makeTable(ANSI)] and [var CCITTTable = makeTable(CCITT)],
    evaluated once when the package is initialised. *)
Definition ANSITable : Table := makeTable ANSI.
Definition CCITTTable : Table := makeTable CCITT.

(** [func MakeTable(poly uint16) *Table] *)
Definition MakeTable (poly : Z) : Table :=
  if poly =? ANSI then ANSITable
  else if poly =? CCITT then CCITTTable
  else makeTable poly.

(** The body of the loop of [Update]:
    [crc = tab[byte(crc)^v] ^ (crc >> 8)]. *)
Definition Update_step (tab : Table) (crc : Z) (v : byte) : Z :=
  U16.xor (index tab (U8.xor (U8.of_u16 crc) (U8.to_Z v))) (U16.shr crc 8).

(** [for _, v := range p { ... }] *)
Fixpoint Update_loop (tab : Table) (crc : Z) (p : list byte) : Z :=
  match p with
  | [] => crc
  | v :: p' => Update_loop tab (Update_step tab crc v) p'
  end.

(** [func Update(crc uint16, tab *Table, p []byte) uint16] *)
Definition Update (crc : Z) (tab : Table) (p : list byte) : Z :=
  let crc := U16.not crc in
  let crc := Update_loop tab crc p in
  U16.not crc.

(** [func Checksum(data []byte, tab *Table) uint16] *)
Definition Checksum (data : list byte) (tab : Table) : Z := Update 0 tab data.

(** [func ChecksumANSI(data []byte) uint16] *)
Definition ChecksumANSI (data : list byte) : Z := Update 0 ANSITable data.

(** [func ChecksumCCITT(data []byte) uint16] *)
Definition ChecksumCCITT (data : list byte) : Z := Update 0 CCITTTable data.

(** *** The digest *)

(** [type digest struct { crc uint16; tab *Table }] *)
Record digest : Type := mkdigest { crc : Z; tab : Table }.

(** Go's [error] interface; the package itself only ever returns [nil],
    which is [None] below. *)
Inductive error : Type := errorString (msg : list byte).

(** Methods on [*digest] read and write the receiver: state passing. *)
Definition M (A : Type) : Type := digest -> A * digest.

Definition ret {A : Type} (a : A) : M A := fun d => (a, d).

Definition bind {A B : Type} (m : M A) (k : A -> M B) : M B :=
  fun d => let (a, d') := m d in k a d'.

Declare Scope digest_scope.
Delimit Scope digest_scope with digest.
Notation "'do' x <- m ;; k" := (bind m (fun x => k))
  (at level 10, x name, m at level 99, k at level 200) : digest_scope.
Local Open Scope digest_scope.

(** Field reads [d.crc], [d.tab] and the field write [d.crc = c]. *)
Definition get_crc : M Z := fun d => (crc d, d).
Definition get_tab : M Table := fun d => (tab d, d).
Definition set_crc (c : Z) : M unit := fun d => (tt, mkdigest c (tab d)).

(** The value and the final receiver of a method call. *)
Definition eval {A : Type} (m : M A) (d : digest) : A := fst (m d).
Definition exec {A : Type} (m : M A) (d : digest) : digest := snd (m d).

(** [func New(tab *Table) Hash16 { return &digest{0, tab} }] *)
Definition New (t : Table) : digest := mkdigest 0 t.

(** [func NewANSI() Hash16] and [func NewCCITT() Hash16] *)
Definition NewANSI : digest := New ANSITable.
Definition NewCCITT : digest := New CCITTTable.

(** [func (d *digest) Size() int { return Size }] *)
Definition digest_Size : M Z := ret Size.

(** [func (d *digest) BlockSize() int { return 1 }] *)
Definition BlockSize : M Z := ret 1.

(** [func (d *digest) Reset() { d.crc = 0 }] *)
Definition Reset : M unit := set_crc 0.

(** [func (d *digest) Write(p []byte) (n int, err error)] *)
Definition Write (p : list byte) : M (Z * option error) :=
  do c <- get_crc ;;
  do t <- get_tab ;;
  do u <- set_crc (Update c t p) ;;
  ret (Z.of_nat (length p), None).

(** [func (d *digest) Sum16() uint16 { return d.crc }] *)
Definition Sum16 : M Z := get_crc.

(** [func (d *digest) Sum(in []byte) []byte]: [append] returns the bytes of
    [in] followed by the appended ones. *)
Definition Sum (input : list byte) : M (list byte) :=
  do s <- Sum16 ;;
  ret (input ++ [U8.byte_of (U16.shr s 8); U8.byte_of s]).

(** A run of [Write] calls, one per element of [ps], in order. *)
Fixpoint Write_all (ps : list (list byte)) : M unit :=
  match ps with
  | [] => ret tt
  | p :: ps' => do n <- Write p ;; Write_all ps'
  end.

(** The interface [Hash16] ([hash.Hash] plus [Sum16]) and its
    implementation by [*digest]. *)
Class Hash16 (H : Type) : Type := {
  h_Write : list byte -> H -> (Z * option error) * H;
  h_Sum : list byte -> H -> list byte * H;
  h_Reset : H -> unit * H;
  h_Size : H -> Z * H;
  h_BlockSize : H -> Z * H;
  h_Sum16 : H -> Z * H
}.

#[export] Instance digest_Hash16 : Hash16 digest := {
  h_Write := Write;
  h_Sum := Sum;
  h_Reset := Reset;
  h_Size := digest_Size;
  h_BlockSize := BlockSize;
  h_Sum16 := Sum16
}.

(** ** The specification's wording of the two algorithms *)

Module Spec.

(** "bitwise-complement the incoming crc": every one of the 16 bits is
    flipped. *)
Definition complement (crc : Z) : Z := Z.lnot crc mod 2 ^ 16.

Definition low_byte (crc : Z) : Z := Z.land crc 0xFF.

(** "table[...]": the entry of the 256-entry mapping at a byte value. *)
Definition entry (table : list Z) (b : Z) : Z := nth (Z.to_nat b) table 0.

(** "set crc = table[low_byte(crc) XOR b] XOR (crc >> 8)" *)
Definition fold_byte (table : list Z) (crc : Z) (b : byte) : Z :=
  Z.lxor (entry table (Z.lxor (low_byte crc) (Z.of_N (Byte.to_N b))))
         (crc / 2 ^ 8).

(** "complement, then for each byte in order ..., then complement" *)
Definition update (crc : Z) (table : list Z) (data : list byte) : Z :=
  complement (fold_left (fold_byte table) data (complement crc)).

(** "if the current low bit of crc is 1, set crc = (crc >> 1) XOR
    polynomial; otherwise set crc = crc >> 1" *)
Definition shift_xor (polynomial crc : Z) : Z :=
  if Z.testbit crc 0
  then Z.lxor (crc / 2) polynomial
  else crc / 2.

(** "starting from crc = i, for each of 8 iterations ..." *)
Definition build_entry (polynomial i : Z) : Z :=
  Nat.iter 8 (shift_xor polynomial) i.

End Spec.

(** ** Test data *)

(** The nine ASCII digits "123456789", bytes 0x31 to 0x39. *)
Definition digits : list byte := [x31; x32; x33; x34; x35; x36; x37; x38; x39].

(** The ANSI and CCITT polynomials with their sixteen bits reversed, the
    form a right-shifting CRC takes its polynomial in. *)
Definition ANSI_reversed : Z := 0xA001.
Definition CCITT_reversed : Z := 0x8408.

(** ** Vocabulary for properties of whole messages and call sequences *)

(** [x] is a number of at most [n] bits. *)
Definition fits (n x : Z) : Prop := 0 <= x < 2 ^ n.

(** Byte-wise XOR of two messages, as a caller would form an error pattern
    ([a[i] ^ b[i]] on Go bytes). *)
Definition xor_byte (a b : byte) : byte :=
  U8.byte_of (U8.xor (U8.to_Z a) (U8.to_Z b)).

Definition xor_bytes (a b : list byte) : list byte := zip_with xor_byte a b.

(** [make([]byte, n)]: [n] zero bytes. *)
Definition zeros (n : nat) : list byte := replicate n x00.

(** One call of a method of the [Hash16] interface on a digest, its result
    dropped, and a sequence of such calls on the same receiver. *)
Inductive call : Type :=
| CallReset
| CallWrite (p : list byte)
| CallSum (input : list byte)
| CallSum16
| CallSize
| CallBlockSize.

Definition run_call (c : call) : M unit :=
  match c with
  | CallReset => Reset
  | CallWrite p => do _ <- Write p ;; ret tt
  | CallSum input => do _ <- Sum input ;; ret tt
  | CallSum16 => do _ <- Sum16 ;; ret tt
  | CallSize => do _ <- digest_Size ;; ret tt
  | CallBlockSize => do _ <- BlockSize ;; ret tt
  end.

Fixpoint run_calls (cs : list call) : M unit :=
  match cs with
  | [] => ret tt
  | c :: cs' => do _ <- run_call c ;; run_calls cs'
  end.

(** A table separates its indices at bit [k] when its entries have at most
    [k + 8] bits and the entries shifted right by [k] are pairwise distinct:
    the index of an entry can then be read back from the bits [k] and up. *)
Definition separates (k : Z) (t : Table) : Prop :=
  0 <= k <= 8 /\
  Forall (fits (k + 8)) t /\
  NoDup ((fun x => U16.shr x k) <$> t).

Definition separatesb (k : Z) (t : Table) : bool :=
  (0 <=? k) && (k <=? 8) &&
  forallb (fun x => (0 <=? x) && (x <? 2 ^ (k + 8))) t &&
  bool_decide (NoDup ((fun x => U16.shr x k) <$> t)).

(** ** Proof automation *)

(** Decide the range tests of a goal and close the cases by arithmetic. *)
Ltac range_cases :=
  repeat match goal with
         | |- context [?a <=? ?b] => destruct (Z.leb_spec a b)
         | |- context [?a <? ?b] => destruct (Z.ltb_spec a b)
         end;
  simpl; solve [reflexivity | lia].

(** Equations between XOR combinations, bit by bit. *)
Ltac lxor_bits :=
  apply Z.bits_inj'; intros ? _;
  rewrite ?Z.lxor_spec, ?Z.bits_0;
  repeat match goal with
         | |- context [Z.testbit ?a ?n] => destruct (Z.testbit a n)
         end;
  reflexivity.

(** ** Facts about the 16-bit operations *)

Section Bits.

Lemma mask_ones : U16.mask = Z.ones 16.
Proof. reflexivity. Qed.

(** A number is a [uint16] exactly when masking it changes nothing. *)
Lemma valid_land (x : Z) : U16.valid x <-> Z.land x U16.mask = x.
Proof.
  rewrite mask_ones, Z.land_ones by lia.
  unfold U16.valid, U16.modulus. split; intros H.
  - apply Z.mod_small; exact H.
  - rewrite <- H. apply Z.mod_pos_bound. lia.
Qed.

Lemma validb_spec (x : Z) : U16.validb x = true <-> U16.valid x.
Proof. unfold U16.validb, U16.valid. lia. Qed.

Lemma valid_0 : U16.valid 0.
Proof. unfold U16.valid, U16.modulus. lia. Qed.

Lemma land_lxor_distr (x y m : Z) :
  Z.land (Z.lxor x y) m = Z.lxor (Z.land x m) (Z.land y m).
Proof.
  apply Z.bits_inj'. intros n _.
  rewrite !Z.lxor_spec, !Z.land_spec, Z.lxor_spec.
  destruct (Z.testbit x n), (Z.testbit y n), (Z.testbit m n); reflexivity.
Qed.

Lemma xor_valid (x y : Z) :
  U16.valid x -> U16.valid y -> U16.valid (U16.xor x y).
Proof.
  rewrite !valid_land. unfold U16.xor. intros Hx Hy.
  rewrite land_lxor_distr, Hx, Hy. reflexivity.
Qed.

Lemma not_valid (x : Z) : U16.valid x -> U16.valid (U16.not x).
Proof.
  intros Hx. apply (xor_valid U16.mask x); [|exact Hx].
  unfold U16.valid, U16.mask, U16.modulus. lia.
Qed.

Lemma shr_valid (x n : Z) : 0 <= n -> U16.valid x -> U16.valid (U16.shr x n).
Proof.
  unfold U16.valid, U16.shr, U16.modulus. intros Hn [Hlo Hhi].
  rewrite Z.shiftr_div_pow2 by exact Hn.
  assert (Hp : 0 < 2 ^ n) by (apply Z.pow_pos_nonneg; lia).
  split.
  - apply Z.div_pos; lia.
  - apply Z.div_lt_upper_bound; nia.
Qed.

Lemma of_int_valid (i : Z) : U16.valid (U16.of_int i).
Proof. apply Z.mod_pos_bound. unfold U16.modulus. lia. Qed.

Lemma of_int_small (i : Z) : U16.valid i -> U16.of_int i = i.
Proof. apply Z.mod_small. Qed.

(** [^^x == x]: the two complements of [Update] cancel. *)
Lemma not_not (x : Z) : U16.not (U16.not x) = x.
Proof.
  unfold U16.not.
  rewrite <- Z.lxor_assoc, Z.lxor_nilpotent. apply Z.lxor_0_l.
Qed.

(** On a [uint16], Go's [^x] flips each of the sixteen bits. *)
Lemma not_complement (x : Z) : U16.valid x -> U16.not x = Spec.complement x.
Proof.
  intros Hx. unfold U16.not, Spec.complement.
  rewrite <- Z.land_ones by lia. rewrite mask_ones.
  apply valid_land in Hx. rewrite mask_ones in Hx.
  apply Z.bits_inj'. intros n Hn.
  rewrite Z.lxor_spec, Z.land_spec, Z.lnot_spec by exact Hn.
  rewrite <- Hx at 1. rewrite Z.land_spec.
  destruct (Z.testbit x n), (Z.testbit (Z.ones 16) n); reflexivity.
Qed.

Lemma of_u16_low_byte (x : Z) : U8.of_u16 x = Spec.low_byte x.
Proof.
  unfold U8.of_u16, Spec.low_byte, U8.modulus.
  change 255 with (Z.ones 8). rewrite Z.land_ones by lia. reflexivity.
Qed.

Lemma to_Z_range (b : byte) : U8.valid (U8.to_Z b).
Proof.
  unfold U8.valid, U8.to_Z, U8.modulus.
  pose proof (Byte.to_N_bounded b) as Hb. lia.
Qed.

Lemma of_u16_range (x : Z) : U8.valid (U8.of_u16 x).
Proof. apply Z.mod_pos_bound. unfold U8.modulus. lia. Qed.

(** [byte(x)] keeps exactly the low eight bits of [x]. *)
Lemma to_Z_byte_of (x : Z) : U8.to_Z (U8.byte_of x) = x mod 256.
Proof.
  unfold U8.byte_of, U8.to_Z.
  pose proof (of_u16_range x) as Hr. unfold U8.valid, U8.modulus in Hr.
  destruct (Byte.of_N (Z.to_N (U8.of_u16 x))) as [b|] eqn:E.
  - apply Byte.to_of_N in E. rewrite E, Z2N.id by lia. reflexivity.
  - apply Byte.of_N_None_iff in E. lia.
Qed.

End Bits.

(** ** Facts about tables *)

Lemma wf_tableb_spec (t : Table) : wf_tableb t = true <-> wf_table t.
Proof.
  unfold wf_tableb, wf_table.
  rewrite andb_true_iff, Nat.eqb_eq, forallb_forall, Forall_forall.
  split; intros [Hl Hf]; (split; [exact Hl|]); intros x Hx.
  - apply validb_spec, Hf, list_elem_of_In, Hx.
  - apply validb_spec, Hf, list_elem_of_In, Hx.
Qed.

Lemma index_valid (t : Table) (i : Z) : Forall U16.valid t -> U16.valid (index t i).
Proof.
  intros Ht. unfold index.
  destruct (t !! Z.to_nat i) as [v|] eqn:E; simpl.
  - exact (Forall_lookup_1 _ _ _ _ Ht E).
  - exact valid_0.
Qed.

Lemma index_entry (t : Table) (i : Z) : index t i = Spec.entry t i.
Proof. unfold index, Spec.entry. symmetry. apply nth_lookup. Qed.

Lemma index_assign_same (t : Table) (i v : Z) :
  (Z.to_nat i < length t)%nat -> index (assign t i v) i = v.
Proof.
  intros Hi. unfold index, assign.
  rewrite list_lookup_insert_eq by exact Hi. reflexivity.
Qed.

Lemma index_assign_other (t : Table) (i j v : Z) :
  0 <= i -> 0 <= j -> i <> j -> index (assign t i v) j = index t j.
Proof.
  intros Hi Hj Hne. unfold index, assign.
  rewrite list_lookup_insert_ne by lia. reflexivity.
Qed.

Lemma length_assign (t : Table) (i v : Z) : length (assign t i v) = length t.
Proof. apply length_insert. Qed.

Lemma assign_valid (t : Table) (i v : Z) :
  U16.valid v -> Forall U16.valid t -> Forall U16.valid (assign t i v).
Proof. intros Hv Ht. apply Forall_insert; assumption. Qed.

(** ** Facts about [makeTable] *)

Lemma shift_step_spec (poly crc : Z) :
  shift_step poly crc = Spec.shift_xor poly crc.
Proof.
  unfold shift_step, Spec.shift_xor, U16.and, U16.xor, U16.shr.
  change 1 with (Z.ones 1) at 1. rewrite Z.land_ones by lia.
  rewrite Z.shiftr_div_pow2 by lia. change (2 ^ 1) with 2.
  rewrite <- Z.bit0_mod.
  destruct (Z.testbit crc 0); reflexivity.
Qed.

Lemma shift_loop_spec (n : nat) (poly crc : Z) :
  shift_loop n poly crc = Nat.iter n (Spec.shift_xor poly) crc.
Proof.
  revert crc. induction n as [|n IH]; intros crc.
  - reflexivity.
  - rewrite Nat.iter_succ_r. simpl. rewrite IH, shift_step_spec. reflexivity.
Qed.

Lemma shift_step_valid (poly crc : Z) :
  U16.valid poly -> U16.valid crc -> U16.valid (shift_step poly crc).
Proof.
  intros Hp Hc. unfold shift_step.
  destruct (U16.and crc 1 =? 1).
  - apply xor_valid; [apply shr_valid; [lia | exact Hc] | exact Hp].
  - apply shr_valid; [lia | exact Hc].
Qed.

Lemma shift_loop_valid (n : nat) (poly crc : Z) :
  U16.valid poly -> U16.valid crc -> U16.valid (shift_loop n poly crc).
Proof.
  intros Hp. revert crc. induction n as [|n IH]; intros crc Hc.
  - exact Hc.
  - simpl. apply IH, shift_step_valid; assumption.
Qed.

Lemma makeTable_loop_length (poly : Z) (n : nat) (i : Z) (t : Table) :
  length (makeTable_loop poly n i t) = length t.
Proof.
  revert i t. induction n as [|n IH]; intros i t.
  - reflexivity.
  - simpl. rewrite IH. apply length_assign.
Qed.

Lemma makeTable_loop_valid (poly : Z) (n : nat) (i : Z) (t : Table) :
  U16.valid poly -> Forall U16.valid t ->
  Forall U16.valid (makeTable_loop poly n i t).
Proof.
  intros Hp. revert i t. induction n as [|n IH]; intros i t Ht.
  - exact Ht.
  - simpl. apply IH, assign_valid; [|exact Ht].
    apply shift_loop_valid; [exact Hp | apply of_int_valid].
Qed.

(** After the iterations [lo, lo+1, ..., lo+n-1] of the outer loop, exactly
    those entries hold their computed value and the others are untouched. *)
Lemma makeTable_loop_index (poly : Z) (n : nat) (lo : Z) (t : Table) (i : Z) :
  0 <= lo -> (Z.to_nat lo + n <= length t)%nat -> 0 <= i ->
  index (makeTable_loop poly n lo t) i =
    if (lo <=? i) && (i <? lo + Z.of_nat n)
    then shift_loop 8 poly (U16.of_int i)
    else index t i.
Proof.
  revert lo t. induction n as [|n IH]; intros lo t Hlo Hlen Hi.
  - simpl makeTable_loop. range_cases.
  - cbn [makeTable_loop].
    rewrite IH; [| lia | unfold makeTable_body; rewrite length_assign; lia | exact Hi].
    unfold makeTable_body.
    destruct (Z.eq_dec lo i) as [->|Hne].
    + rewrite index_assign_same by lia. range_cases.
    + rewrite index_assign_other by assumption. range_cases.
Qed.

Lemma makeTable_index (poly i : Z) :
  0 <= i < 256 -> index (makeTable poly) i = shift_loop 8 poly (U16.of_int i).
Proof.
  intros Hi. unfold makeTable.
  rewrite makeTable_loop_index; [| lia | | lia].
  - range_cases.
  - unfold new_Table. rewrite length_replicate. unfold table_len. simpl. lia.
Qed.

Lemma makeTable_wf (poly : Z) : U16.valid poly -> wf_table (makeTable poly).
Proof.
  intros Hp. unfold makeTable. split.
  - rewrite makeTable_loop_length. apply length_replicate.
  - apply makeTable_loop_valid; [exact Hp|].
    apply Forall_replicate, valid_0.
Qed.

Lemma MakeTable_makeTable (poly : Z) : MakeTable poly = makeTable poly.
Proof.
  unfold MakeTable, ANSITable, CCITTTable.
  destruct (Z.eqb_spec poly ANSI) as [->|_]; [reflexivity|].
  destruct (Z.eqb_spec poly CCITT) as [->|_]; reflexivity.
Qed.

(** ** Facts about [Update] *)

Lemma Update_step_spec (t : Table) (crc : Z) (v : byte) :
  Update_step t crc v = Spec.fold_byte t crc v.
Proof.
  unfold Update_step, Spec.fold_byte, U16.xor, U16.shr, U8.xor, U8.to_Z.
  rewrite index_entry, of_u16_low_byte, Z.shiftr_div_pow2 by lia.
  reflexivity.
Qed.

Lemma Update_loop_spec (t : Table) (crc : Z) (p : list byte) :
  Update_loop t crc p = fold_left (Spec.fold_byte t) p crc.
Proof.
  revert crc. induction p as [|v p IH]; intros crc.
  - reflexivity.
  - simpl. rewrite IH, Update_step_spec. reflexivity.
Qed.

(** With 16-bit table entries the running crc stays a [uint16]. *)
Section Update_range.

Variable t : Table.
Hypothesis Ht : Forall U16.valid t.

Lemma Update_step_valid (crc : Z) (v : byte) :
  U16.valid crc -> U16.valid (Update_step t crc v).
Proof.
  intros Hc. unfold Update_step.
  apply xor_valid; [apply index_valid, Ht | apply shr_valid; [lia | exact Hc]].
Qed.

Lemma Update_loop_valid (crc : Z) (p : list byte) :
  U16.valid crc -> U16.valid (Update_loop t crc p).
Proof.
  revert crc. induction p as [|v p IH]; intros crc Hc.
  - exact Hc.
  - simpl. apply IH, Update_step_valid, Hc.
Qed.

Lemma Update_valid (crc : Z) (p : list byte) :
  U16.valid crc -> U16.valid (Update crc t p).
Proof.
  intros Hc. unfold Update.
  apply not_valid, Update_loop_valid, not_valid, Hc.
Qed.

End Update_range.

Lemma Update_loop_app (t : Table) (crc : Z) (a b : list byte) :
  Update_loop t crc (a ++ b) = Update_loop t (Update_loop t crc a) b.
Proof.
  revert crc. induction a as [|v a IH]; intros crc.
  - reflexivity.
  - simpl. apply IH.
Qed.

(** Feeding the output of one call back as the starting [crc] of the next
    continues the same checksum. *)
Lemma Update_app (crc : Z) (t : Table) (a b : list byte) :
  Update (Update crc t a) t b = Update crc t (a ++ b).
Proof.
  unfold Update. rewrite not_not, Update_loop_app. reflexivity.
Qed.

Lemma Update_nil (crc : Z) (t : Table) : Update crc t [] = crc.
Proof. unfold Update. simpl. apply not_not. Qed.

(** ** Facts about the digest *)

Lemma Write_run (p : list byte) (d : digest) :
  Write p d =
    ((Z.of_nat (length p), None), mkdigest (Update (crc d) (tab d) p) (tab d)).
Proof. reflexivity. Qed.

Lemma Write_all_tab (ps : list (list byte)) (d : digest) :
  tab (exec (Write_all ps) d) = tab d.
Proof.
  revert d. induction ps as [|p ps IH]; intros d.
  - reflexivity.
  - unfold exec in *. simpl. unfold bind. rewrite Write_run, IH. reflexivity.
Qed.

(** A run of writes is one write of the concatenation. *)
Lemma Write_all_crc (ps : list (list byte)) (d : digest) :
  crc (exec (Write_all ps) d) = Update (crc d) (tab d) (concat ps).
Proof.
  revert d. induction ps as [|p ps IH]; intros d.
  - simpl. symmetry. apply Update_nil.
  - unfold exec in *. simpl. unfold bind. rewrite Write_run, IH. simpl.
    apply Update_app.
Qed.

(** ** The test vectors, evaluated *)

Example ANSITable_wf : wf_tableb ANSITable = true.
Proof. vm_compute. reflexivity. Qed.

Example CCITTTable_wf : wf_tableb CCITTTable = true.
Proof. vm_compute. reflexivity. Qed.

Example Sum_digits :
  eval (do _ <- Write digits ;; Sum [x00; xff]) NewANSI = [x00; xff; xc2; x84].
Proof. vm_compute. reflexivity. Qed.

Example ANSI_reversed_bits :
  forallb (fun n => Bool.eqb (Z.testbit ANSI_reversed n) (Z.testbit ANSI (15 - n)))
          (map Z.of_nat (seq 0 16)) = true.
Proof. vm_compute. reflexivity. Qed.

Example CCITT_reversed_bits :
  forallb (fun n => Bool.eqb (Z.testbit CCITT_reversed n) (Z.testbit CCITT (15 - n)))
          (map Z.of_nat (seq 0 16)) = true.
Proof. vm_compute. reflexivity. Qed.

(** ** Known-answer vectors *)

(** The same code over the tables of the bit-reversed constants gives the
    check values of the USB and X.25 CRCs that the comments on [ANSI] and
    [CCITT] name, and its uncomplemented byte loop gives 0xBB3D. *)
Example reversed_constants_digits :
  Checksum digits (makeTable ANSI_reversed) = 0xB4C8 /\
  Checksum digits (makeTable CCITT_reversed) = 0x906E /\
  Update_loop (makeTable ANSI_reversed) 0 digits = 0xBB3D.
Proof. vm_compute. repeat split. Qed.

(** C1: on the nine bytes 0x31..0x39, [ChecksumANSI] returns 0xC284, which
    is not the vector 0xBB3D. *)
Theorem ChecksumANSI_digits_value :
  ChecksumANSI digits = 0xC284 /\ ChecksumANSI digits <> 0xBB3D.
Proof.
  assert (H : ChecksumANSI digits = 0xC284) by (vm_compute; reflexivity).
  split; [exact H|]. rewrite H. discriminate.
Qed.

(** C2: on the nine bytes 0x31..0x39, [ChecksumCCITT] returns 0xE245, which
    is not the vector 0x31C3. *)
Theorem ChecksumCCITT_digits_value :
  ChecksumCCITT digits = 0xE245 /\ ChecksumCCITT digits <> 0x31C3.
Proof.
  assert (H : ChecksumCCITT digits = 0xE245) by (vm_compute; reflexivity).
  split; [exact H|]. rewrite H. discriminate.
Qed.

(** ** The update function *)

(** C3: on every 16-bit [crc], every table and every byte sequence, [Update]
    computes what the specification describes: complement, fold
    [table[low_byte(crc) XOR b] XOR (crc >> 8)] over the bytes in order,
    complement. *)
Theorem Update_refines_spec (c : Z) (t : Table) (data : list byte) :
  U16.valid c -> wf_table t -> Update c t data = Spec.update c t data.
Proof.
  intros Hc [_ Ht]. unfold Update, Spec.update.
  rewrite <- Update_loop_spec, <- (not_complement c Hc).
  apply not_complement, Update_loop_valid; [exact Ht | apply not_valid, Hc].
Qed.

Lemma Update_refines_spec_witness :
  U16.valid 0xC284 /\ wf_table ANSITable /\
  Update 0xC284 ANSITable digits = Spec.update 0xC284 ANSITable digits.
Proof.
  assert (Hc : U16.valid 0xC284) by (apply validb_spec; vm_compute; reflexivity).
  assert (Ht : wf_table ANSITable) by (apply wf_tableb_spec; vm_compute; reflexivity).
  split; [exact Hc|]. split; [exact Ht|].
  apply (Update_refines_spec 0xC284 ANSITable digits Hc Ht).
Defined.

(** C4: incremental equivalence.  Splitting the input anywhere and chaining
    two [Update] calls through the raw intermediate value, or writing the two
    parts to a fresh digest, gives the one-shot checksum of the whole. *)
Theorem incremental_equivalence (t : Table) (a b : list byte) :
  Update (Update 0 t a) t b = Checksum (a ++ b) t /\
  eval (do _ <- Write a ;; do _ <- Write b ;; Sum16) (New t) = Checksum (a ++ b) t.
Proof.
  split.
  - apply Update_app.
  - unfold eval, bind. rewrite !Write_run. simpl. apply Update_app.
Qed.

(** C5: the checksum of the empty byte sequence is 0, whatever the table. *)
Theorem Checksum_empty (t : Table) : Checksum [] t = 0.
Proof. unfold Checksum. apply Update_nil. Qed.

(** C10: on an empty byte sequence [Update] returns its [crc] argument, for
    every value of it, and an empty [Write] leaves the digest, hence its
    [Sum16], as it was. *)
Theorem Update_empty_identity (c : Z) (t : Table) (d : digest) :
  Update c t [] = c /\
  exec (Write []) d = d /\
  eval (do _ <- Write [] ;; Sum16) d = eval Sum16 d.
Proof.
  split; [apply Update_nil|].
  unfold exec, eval, bind. rewrite Write_run. simpl. rewrite Update_nil.
  destruct d; split; reflexivity.
Qed.

(** ** Table construction *)

(** C6: entry [i] of [MakeTable p] is the result of eight
    shift-and-conditional-XOR steps from [crc = i], for every polynomial,
    the two cached ones included; for those [MakeTable] hands out the table
    built at package initialisation. *)
Theorem MakeTable_entry (p i : Z) :
  0 <= i < 256 ->
  index (MakeTable p) i = Spec.build_entry p i /\
  MakeTable ANSI = ANSITable /\
  MakeTable CCITT = CCITTTable.
Proof.
  intros Hi. split; [|split; reflexivity].
  rewrite MakeTable_makeTable, makeTable_index by exact Hi.
  rewrite shift_loop_spec, of_int_small; [reflexivity|].
  unfold U16.valid, U16.modulus. lia.
Qed.

Lemma MakeTable_entry_witness :
  0 <= 0x31 < 256 /\
  index (MakeTable ANSI) 0x31 = Spec.build_entry ANSI 0x31 /\
  MakeTable ANSI = ANSITable /\
  MakeTable CCITT = CCITTTable.
Proof.
  split; [lia|]. apply (MakeTable_entry ANSI 0x31). lia.
Defined.

(** ** The digest methods *)

(** C7: [Write p] stores [Update] of the old crc, the digest's table and [p]
    in the crc field, returns no error and returns the length of [p]. *)
Theorem Write_spec (d : digest) (p : list byte) :
  exec (Write p) d = mkdigest (Update (crc d) (tab d) p) (tab d) /\
  snd (eval (Write p) d) = None /\
  fst (eval (Write p) d) = Z.of_nat (length p).
Proof. unfold exec, eval. rewrite Write_run. repeat split. Qed.

(** C8: [Sum16] returns the crc and leaves the digest as it is; [Sum prefix]
    returns [prefix] followed by exactly two bytes, the high byte of the crc
    and then its low byte, and leaves the digest as it is too. *)
Theorem Sum_spec (d : digest) (prefix : list byte) :
  U16.valid (crc d) ->
  Sum16 d = (crc d, d) /\
  exists hi lo : byte,
    Sum prefix d = (prefix ++ [hi; lo], d) /\
    U8.to_Z hi = crc d / 256 /\
    U8.to_Z lo = crc d mod 256 /\
    crc d = 256 * U8.to_Z hi + U8.to_Z lo.
Proof.
  intros Hc. split; [reflexivity|].
  exists (U8.byte_of (U16.shr (crc d) 8)), (U8.byte_of (crc d)).
  split; [reflexivity|].
  rewrite !to_Z_byte_of. unfold U16.shr.
  rewrite Z.shiftr_div_pow2 by lia. change (2 ^ 8) with 256.
  unfold U16.valid, U16.modulus in Hc.
  assert (Hhi : 0 <= crc d / 256 < 256).
  { split; [apply Z.div_pos; lia | apply Z.div_lt_upper_bound; lia]. }
  rewrite (Z.mod_small (crc d / 256)) by exact Hhi.
  split; [reflexivity|]. split; [reflexivity|].
  apply Z.div_mod. lia.
Qed.

Lemma Sum_spec_witness :
  U16.valid (crc (mkdigest 0xC284 ANSITable)) /\
  Sum16 (mkdigest 0xC284 ANSITable) = (0xC284, mkdigest 0xC284 ANSITable) /\
  exists hi lo : byte,
    Sum [x00; xff] (mkdigest 0xC284 ANSITable)
      = ([x00; xff] ++ [hi; lo], mkdigest 0xC284 ANSITable) /\
    U8.to_Z hi = 0xC284 / 256 /\
    U8.to_Z lo = 0xC284 mod 256 /\
    0xC284 = 256 * U8.to_Z hi + U8.to_Z lo.
Proof.
  assert (Hc : U16.valid (crc (mkdigest 0xC284 ANSITable)))
    by (apply validb_spec; vm_compute; reflexivity).
  split; [exact Hc|].
  apply (Sum_spec (mkdigest 0xC284 ANSITable) [x00; xff] Hc).
Defined.

(** C9: [Reset] zeroes the crc field and keeps the table; after any run of
    writes followed by [Reset], [Sum16] returns 0 and the digest is the one
    [New] builds over the same table. *)
Theorem Reset_spec (d : digest) (ps : list (list byte)) :
  crc (exec Reset d) = 0 /\
  tab (exec Reset d) = tab d /\
  eval Sum16 (exec (do _ <- Write_all ps ;; Reset) d) = 0 /\
  exec (do _ <- Write_all ps ;; Reset) d = New (tab d).
Proof.
  split; [reflexivity|]. split; [reflexivity|].
  assert (H : exec (do _ <- Write_all ps ;; Reset) d = New (tab d)).
  { pose proof (Write_all_tab ps d) as Ht. unfold exec, bind in *.
    destruct (Write_all ps d) as [u d']. simpl in *.
    unfold New. rewrite Ht. reflexivity. }
  rewrite H. split; reflexivity.
Qed.

(** * Further properties of the package *)

(** ** Bit-level facts used below *)

Lemma fits_land (n x : Z) : 0 <= n -> fits n x <-> Z.land x (Z.ones n) = x.
Proof.
  intros Hn. rewrite Z.land_ones by exact Hn. unfold fits. split; intros H.
  - apply Z.mod_small, H.
  - rewrite <- H. apply Z.mod_pos_bound, Z.pow_pos_nonneg; lia.
Qed.

Lemma fits_lxor (n x y : Z) : 0 <= n -> fits n x -> fits n y -> fits n (Z.lxor x y).
Proof.
  intros Hn Hx Hy. apply fits_land in Hx, Hy; try exact Hn.
  apply fits_land; [exact Hn|].
  rewrite land_lxor_distr, Hx, Hy. reflexivity.
Qed.

Lemma fits_mono (n m x : Z) : 0 <= n <= m -> fits n x -> fits m x.
Proof.
  unfold fits. intros Hnm [Hlo Hhi]. split; [exact Hlo|].
  apply Z.lt_le_trans with (2 ^ n); [exact Hhi|].
  apply Z.pow_le_mono_r; lia.
Qed.

Lemma fits_shiftr (n k x : Z) :
  0 <= n -> 0 <= k -> fits (n + k) x -> fits n (Z.shiftr x k).
Proof.
  unfold fits. intros Hn Hk [Hlo Hhi].
  rewrite Z.shiftr_div_pow2 by exact Hk.
  assert (Hp : 0 < 2 ^ k) by (apply Z.pow_pos_nonneg; lia).
  split; [apply Z.div_pos; lia|].
  apply Z.div_lt_upper_bound; [exact Hp|].
  rewrite <- Z.pow_add_r by lia. rewrite Z.add_comm. exact Hhi.
Qed.

Lemma shiftr_small (k x : Z) : 0 <= k -> fits k x -> Z.shiftr x k = 0.
Proof.
  unfold fits. intros Hk Hx.
  rewrite Z.shiftr_div_pow2 by exact Hk. apply Z.div_small, Hx.
Qed.

Lemma lxor_cancel_l (a x y : Z) : Z.lxor a x = Z.lxor a y -> x = y.
Proof.
  intros H. apply (f_equal (Z.lxor a)) in H.
  rewrite <- !Z.lxor_assoc, Z.lxor_nilpotent, !Z.lxor_0_l in H. exact H.
Qed.

Lemma lxor_cancel_r (a x y : Z) : Z.lxor x a = Z.lxor y a -> x = y.
Proof. rewrite !(Z.lxor_comm _ a). apply lxor_cancel_l. Qed.

Lemma lxor_swap (a b c d : Z) :
  Z.lxor (Z.lxor a b) (Z.lxor c d) = Z.lxor (Z.lxor a c) (Z.lxor b d).
Proof.
  rewrite !Z.lxor_assoc. f_equal.
  rewrite <- !Z.lxor_assoc. f_equal. apply Z.lxor_comm.
Qed.

Lemma of_u16_lxor (x y : Z) :
  U8.of_u16 (Z.lxor x y) = Z.lxor (U8.of_u16 x) (U8.of_u16 y).
Proof.
  unfold U8.of_u16, U8.modulus. rewrite <- !Z.land_ones by lia.
  apply land_lxor_distr.
Qed.

Lemma of_u16_fits (x : Z) : fits 8 (U8.of_u16 x).
Proof. apply of_u16_range. Qed.

Lemma to_Z_fits (b : byte) : fits 8 (U8.to_Z b).
Proof. apply to_Z_range. Qed.

Lemma valid_fits (x : Z) : U16.valid x <-> fits 16 x.
Proof. reflexivity. Qed.

(** A byte is determined by its numeric value. *)
Lemma to_Z_inj (a b : byte) : U8.to_Z a = U8.to_Z b -> a = b.
Proof.
  unfold U8.to_Z. intros H. apply N2Z.inj in H.
  apply (f_equal Byte.of_N) in H. rewrite !Byte.of_to_N in H.
  congruence.
Qed.

Lemma byte_of_to_Z (b : byte) : U8.byte_of (U8.to_Z b) = b.
Proof.
  apply to_Z_inj. rewrite to_Z_byte_of.
  apply Z.mod_small, to_Z_range.
Qed.

Lemma to_Z_xor_byte (a b : byte) :
  U8.to_Z (xor_byte a b) = Z.lxor (U8.to_Z a) (U8.to_Z b).
Proof.
  unfold xor_byte, U8.xor. rewrite to_Z_byte_of.
  apply Z.mod_small. apply (fits_lxor 8); [lia | apply to_Z_fits ..].
Qed.

(** On a [uint16], [^x] is [0xFFFF - x]. *)
Lemma not_sub (x : Z) : U16.valid x -> U16.not x = 0xFFFF - x.
Proof.
  intros Hx. rewrite (not_complement x Hx). unfold Spec.complement, Z.lnot.
  unfold U16.valid, U16.modulus in Hx.
  replace (Z.pred (- x)) with (0xFFFF - x + (-1) * 2 ^ 16) by lia.
  rewrite Z.mod_add by lia. apply Z.mod_small. lia.
Qed.

Lemma not_inj (x y : Z) : U16.not x = U16.not y -> x = y.
Proof. intros H. rewrite <- (not_not x), <- (not_not y), H. reflexivity. Qed.

(** ** Tables built by [makeTable] *)

Lemma shift_step_lxor (poly x y : Z) :
  shift_step poly (Z.lxor x y) =
    Z.lxor (shift_step poly x) (shift_step poly y).
Proof.
  rewrite !shift_step_spec. unfold Spec.shift_xor.
  rewrite Z.lxor_spec, <- !Z.div2_div, !Z.div2_spec, Z.shiftr_lxor.
  destruct (Z.testbit x 0), (Z.testbit y 0); simpl; lxor_bits.
Qed.

Lemma shift_loop_lxor (n : nat) (poly x y : Z) :
  shift_loop n poly (Z.lxor x y) =
    Z.lxor (shift_loop n poly x) (shift_loop n poly y).
Proof.
  revert x y. induction n as [|n IH]; intros x y.
  - reflexivity.
  - simpl. rewrite shift_step_lxor. apply IH.
Qed.

Lemma byte_index_valid (i : Z) : fits 8 i -> U16.valid i.
Proof. intros Hi. apply valid_fits. apply (fits_mono 8 16); [lia | exact Hi]. Qed.

(** X1: for a 16-bit polynomial, [MakeTable] returns 256 entries that are
    all 16-bit values; no step of the construction leaves the range. *)
Theorem MakeTable_wf (poly : Z) : U16.valid poly -> wf_table (MakeTable poly).
Proof. intros Hp. rewrite MakeTable_makeTable. apply makeTable_wf, Hp. Qed.

Lemma MakeTable_wf_witness : U16.valid 0x8408 /\ wf_table (MakeTable 0x8408).
Proof.
  assert (Hp : U16.valid 0x8408) by (apply validb_spec; vm_compute; reflexivity).
  split; [exact Hp|]. apply (MakeTable_wf 0x8408 Hp).
Defined.

Lemma makeTable_index_128 (poly : Z) : index (makeTable poly) 0x80 = poly.
Proof. rewrite makeTable_index by lia. reflexivity. Qed.

(** X2: in every table, entry 0 is 0 and entry 0x80 is the polynomial
    itself. *)
Theorem MakeTable_entry_0_and_128 (poly : Z) :
  index (MakeTable poly) 0 = 0 /\ index (MakeTable poly) 0x80 = poly.
Proof.
  rewrite MakeTable_makeTable. split.
  - rewrite makeTable_index by lia. reflexivity.
  - apply makeTable_index_128.
Qed.

(** X3: different polynomials give different tables. *)
Theorem MakeTable_injective (p q : Z) : p <> q -> MakeTable p <> MakeTable q.
Proof.
  rewrite !MakeTable_makeTable. intros Hne Heq. apply Hne.
  rewrite <- (makeTable_index_128 p), <- (makeTable_index_128 q), Heq.
  reflexivity.
Qed.

Lemma MakeTable_injective_witness :
  ANSI <> CCITT /\ MakeTable ANSI <> MakeTable CCITT.
Proof.
  assert (Hne : ANSI <> CCITT) by (vm_compute; discriminate).
  split; [exact Hne|]. apply (MakeTable_injective ANSI CCITT Hne).
Defined.

Lemma makeTable_index_lxor (poly a b : Z) :
  fits 8 a -> fits 8 b ->
  index (makeTable poly) (Z.lxor a b) =
    Z.lxor (index (makeTable poly) a) (index (makeTable poly) b).
Proof.
  intros Ha Hb.
  assert (Hab : fits 8 (Z.lxor a b)) by (apply fits_lxor; [lia | assumption ..]).
  rewrite !makeTable_index by assumption.
  rewrite !of_int_small by (apply byte_index_valid; assumption).
  apply shift_loop_lxor.
Qed.

(** X4: a table is linear over XOR: the entry at [a XOR b] is the XOR of the
    entries at [a] and at [b], for all byte values [a] and [b]. *)
Theorem MakeTable_linear (poly a b : Z) :
  fits 8 a -> fits 8 b ->
  index (MakeTable poly) (Z.lxor a b) =
    Z.lxor (index (MakeTable poly) a) (index (MakeTable poly) b).
Proof. rewrite MakeTable_makeTable. apply makeTable_index_lxor. Qed.

Lemma MakeTable_linear_witness :
  fits 8 0x31 /\ fits 8 0x80 /\
  index (MakeTable CCITT) (Z.lxor 0x31 0x80) =
    Z.lxor (index (MakeTable CCITT) 0x31) (index (MakeTable CCITT) 0x80).
Proof.
  assert (Ha : fits 8 0x31) by (unfold fits; lia).
  assert (Hb : fits 8 0x80) by (unfold fits; lia).
  split; [exact Ha|]. split; [exact Hb|].
  apply (MakeTable_linear CCITT 0x31 0x80 Ha Hb).
Defined.

(** ** Range and composition of [Update] *)

(** X5: on a table of 16-bit entries and a 16-bit [crc], the result of
    [Update] is a 16-bit value, for every input. *)
Theorem Update_in_range (c : Z) (t : Table) (p : list byte) :
  wf_table t -> U16.valid c -> U16.valid (Update c t p).
Proof. intros [_ Ht] Hc. apply Update_valid; assumption. Qed.

Lemma Update_in_range_witness :
  wf_table CCITTTable /\ U16.valid 0x1D0F /\
  U16.valid (Update 0x1D0F CCITTTable digits).
Proof.
  assert (Ht : wf_table CCITTTable) by (apply wf_tableb_spec; vm_compute; reflexivity).
  assert (Hc : U16.valid 0x1D0F) by (apply validb_spec; vm_compute; reflexivity).
  split; [exact Ht|]. split; [exact Hc|].
  apply (Update_in_range 0x1D0F CCITTTable digits Ht Hc).
Defined.

(** ** The digest as a stream *)

Lemma run_call_tab (c : call) (d : digest) : tab (exec (run_call c) d) = tab d.
Proof. destruct c; reflexivity. Qed.

Lemma run_call_valid (c : call) (d : digest) :
  Forall U16.valid (tab d) -> U16.valid (crc d) ->
  U16.valid (crc (exec (run_call c) d)).
Proof.
  intros Ht Hc. destruct c; try exact Hc.
  - exact valid_0.
  - apply Update_valid; assumption.
Qed.

Lemma run_calls_cons (c : call) (cs : list call) (d : digest) :
  exec (run_calls (c :: cs)) d = exec (run_calls cs) (exec (run_call c) d).
Proof.
  unfold exec. simpl. unfold bind. destruct (run_call c d). reflexivity.
Qed.

(** X6: however the input is cut into chunks, writing the chunks in order
    to a fresh digest leaves [Sum16] equal to the one-shot [Checksum] of the
    whole input. *)
Theorem Write_chunks (t : Table) (ps : list (list byte)) :
  eval (do _ <- Write_all ps ;; Sum16) (New t) = Checksum (concat ps) t.
Proof.
  pose proof (Write_all_crc ps (New t)) as H.
  unfold eval, exec, bind in *. destruct (Write_all ps (New t)) as [u d'].
  exact H.
Qed.

(** X7: the named constructors and the named one-shot helpers agree with
    each other and with the table [MakeTable] returns for the same
    polynomial. *)
Theorem named_variants (ps : list (list byte)) (data : list byte) :
  eval (do _ <- Write_all ps ;; Sum16) NewANSI = ChecksumANSI (concat ps) /\
  eval (do _ <- Write_all ps ;; Sum16) NewCCITT = ChecksumCCITT (concat ps) /\
  ChecksumANSI data = Checksum data (MakeTable ANSI) /\
  ChecksumCCITT data = Checksum data (MakeTable CCITT) /\
  NewANSI = New (MakeTable ANSI) /\
  NewCCITT = New (MakeTable CCITT).
Proof.
  split; [|split; [|repeat split]].
  - pose proof (Write_all_crc ps NewANSI) as H.
    unfold eval, exec, bind in *. destruct (Write_all ps NewANSI). exact H.
  - pose proof (Write_all_crc ps NewCCITT) as H.
    unfold eval, exec, bind in *. destruct (Write_all ps NewCCITT). exact H.
Qed.

(** X8: whatever methods are called on a digest, in whatever order, its
    table stays the one it was built with and its crc stays a 16-bit
    value. *)
Theorem digest_invariant (d : digest) (cs : list call) :
  wf_table (tab d) -> U16.valid (crc d) ->
  tab (exec (run_calls cs) d) = tab d /\
  U16.valid (crc (exec (run_calls cs) d)).
Proof.
  intros [_ Ht]. revert d Ht. induction cs as [|c cs IH]; intros d Ht Hc.
  - split; [reflexivity | exact Hc].
  - rewrite run_calls_cons.
    destruct (IH (exec (run_call c) d)) as [IHt IHc].
    + rewrite run_call_tab. exact Ht.
    + apply run_call_valid; assumption.
    + rewrite IHt, run_call_tab. split; [reflexivity | exact IHc].
Qed.

Lemma digest_invariant_witness :
  wf_table (tab NewANSI) /\ U16.valid (crc NewANSI) /\
  tab (exec (run_calls [CallWrite digits; CallSum []; CallReset;
                        CallWrite [x00]; CallSum16]) NewANSI) = tab NewANSI /\
  U16.valid (crc (exec (run_calls [CallWrite digits; CallSum []; CallReset;
                                   CallWrite [x00]; CallSum16]) NewANSI)).
Proof.
  assert (Ht : wf_table (tab NewANSI))
    by (apply wf_tableb_spec; vm_compute; reflexivity).
  assert (Hc : U16.valid (crc NewANSI))
    by (apply validb_spec; vm_compute; reflexivity).
  split; [exact Ht|]. split; [exact Hc|].
  apply (digest_invariant NewANSI
           [CallWrite digits; CallSum []; CallReset; CallWrite [x00]; CallSum16]
           Ht Hc).
Defined.

(** X9: [Sum] lengthens its argument by exactly [Size] bytes, the number
    the [Size] method reports. *)
Theorem Sum_length (d : digest) (input : list byte) :
  Z.of_nat (length (eval (Sum input) d)) =
    Z.of_nat (length input) + eval digest_Size d.
Proof.
  unfold eval, Sum, digest_Size, Sum16, get_crc, bind, ret, Size. simpl.
  rewrite length_app. simpl. lia.
Qed.

(** ** Linearity of the checksum *)

Lemma xor_byte_x00 (v : byte) : xor_byte x00 v = v.
Proof.
  apply to_Z_inj. rewrite to_Z_xor_byte. apply Z.lxor_0_l.
Qed.

Lemma xor_bytes_zeros (b : list byte) : xor_bytes (zeros (length b)) b = b.
Proof.
  unfold xor_bytes, zeros. induction b as [|v b IH]; simpl.
  - reflexivity.
  - rewrite xor_byte_x00, IH. reflexivity.
Qed.

Lemma length_zeros (n : nat) : length (zeros n) = n.
Proof. apply length_replicate. Qed.

Section Linear_table.

Variable t : Table.
Hypothesis Hlin : forall a b : Z, fits 8 a -> fits 8 b ->
  index t (Z.lxor a b) = Z.lxor (index t a) (index t b).

Lemma Update_step_lxor (x y : Z) (va vb : byte) :
  Update_step t (Z.lxor x y) (xor_byte va vb) =
    Z.lxor (Update_step t x va) (Update_step t y vb).
Proof.
  unfold Update_step, U16.xor, U16.shr, U8.xor.
  rewrite to_Z_xor_byte, of_u16_lxor, Z.shiftr_lxor.
  rewrite (lxor_swap (U8.of_u16 x)).
  rewrite Hlin by (apply fits_lxor; [lia | apply of_u16_fits | apply to_Z_fits]).
  apply lxor_swap.
Qed.

Lemma Update_loop_lxor (a b : list byte) (x y : Z) :
  length a = length b ->
  Update_loop t (Z.lxor x y) (xor_bytes a b) =
    Z.lxor (Update_loop t x a) (Update_loop t y b).
Proof.
  revert b x y. induction a as [|va a IH]; intros [|vb b] x y Hlen;
    try discriminate Hlen.
  - reflexivity.
  - simpl. rewrite Update_step_lxor. apply IH. simpl in Hlen. lia.
Qed.

Lemma Checksum_lxor (a b : list byte) :
  length a = length b ->
  Checksum (xor_bytes a b) t =
    Z.lxor (Z.lxor (Checksum a t) (Checksum b t))
           (Checksum (zeros (length a)) t).
Proof.
  intros Hlen. unfold Checksum, Update.
  pose proof (Update_loop_lxor a b (U16.not 0) 0 Hlen) as Hab.
  pose proof (Update_loop_lxor (zeros (length b)) b (U16.not 0) 0
                (length_zeros (length b))) as Hzb.
  rewrite xor_bytes_zeros in Hzb. rewrite Z.lxor_0_r in Hab, Hzb.
  rewrite Hab, Hzb, Hlen. unfold U16.not.
  generalize (Update_loop t (Z.lxor U16.mask 0) a).
  generalize (Update_loop t (Z.lxor U16.mask 0) (zeros (length b))).
  generalize (Update_loop t 0 b). generalize U16.mask.
  intros m u z w. lxor_bits.
Qed.

End Linear_table.

(** X10: over any table [MakeTable] returns, the checksum is affine in the
    message: for two messages of equal length, the checksum of their
    byte-wise XOR is the XOR of their checksums and of the checksum of the
    all-zero message of that length.  An error pattern therefore changes
    the checksum in the same way whatever message it hits. *)
Theorem Checksum_affine (poly : Z) (a b : list byte) :
  length a = length b ->
  Checksum (xor_bytes a b) (MakeTable poly) =
    Z.lxor (Z.lxor (Checksum a (MakeTable poly)) (Checksum b (MakeTable poly)))
           (Checksum (zeros (length a)) (MakeTable poly)).
Proof.
  apply Checksum_lxor. intros x y Hx Hy.
  rewrite MakeTable_makeTable. apply makeTable_index_lxor; assumption.
Qed.

Lemma Checksum_affine_witness :
  length digits = length (zeros 8 ++ [x01]) /\
  Checksum (xor_bytes digits (zeros 8 ++ [x01])) (MakeTable ANSI) =
    Z.lxor (Z.lxor (Checksum digits (MakeTable ANSI))
                   (Checksum (zeros 8 ++ [x01]) (MakeTable ANSI)))
           (Checksum (zeros (length digits)) (MakeTable ANSI)).
Proof.
  assert (Hlen : length digits = length (zeros 8 ++ [x01])) by reflexivity.
  split; [exact Hlen|].
  apply (Checksum_affine ANSI digits (zeros 8 ++ [x01]) Hlen).
Defined.

(** ** Changes the checksum detects *)

Lemma separatesb_spec (k : Z) (t : Table) :
  separatesb k t = true -> separates k t.
Proof.
  unfold separatesb, separates. rewrite !andb_true_iff.
  intros [[[Hk0 Hk8] Hf] Hn]. split; [lia|]. split.
  - apply Forall_forall. intros x Hx.
    rewrite forallb_forall in Hf. specialize (Hf x).
    rewrite <- list_elem_of_In in Hf. specialize (Hf Hx).
    unfold fits. lia.
  - apply bool_decide_eq_true in Hn. exact Hn.
Qed.

Section Separating_table.

Variables (k : Z) (t : Table).
Hypothesis Hsep : separates k t.
Hypothesis Hlen : length t = table_len.

Lemma sep_k : 0 <= k <= 8.
Proof. apply Hsep. Qed.

Lemma sep_valid : Forall U16.valid t.
Proof.
  destruct Hsep as (Hk & Hf & _).
  eapply Forall_impl; [exact Hf|].
  intros x Hx. apply valid_fits. apply (fits_mono (k + 8) 16); [lia | exact Hx].
Qed.

Lemma sep_index_fits (i : Z) : fits (k + 8) (index t i).
Proof.
  destruct Hsep as (Hk & Hf & _). unfold index.
  destruct (t !! Z.to_nat i) as [x|] eqn:E; simpl.
  - exact (Forall_lookup_1 _ _ _ _ Hf E).
  - unfold fits. split; [lia | apply Z.pow_pos_nonneg; lia].
Qed.

Lemma sep_lookup (i : Z) : fits 8 i -> t !! Z.to_nat i = Some (index t i).
Proof.
  intros Hi. unfold index.
  destruct (lookup_lt_is_Some_2 t (Z.to_nat i)) as [x Hx].
  - rewrite Hlen. unfold table_len, fits in *. lia.
  - rewrite Hx. reflexivity.
Qed.

(** The bits [k] and up of an entry tell its index. *)
Lemma sep_index_inj (i j : Z) :
  fits 8 i -> fits 8 j ->
  U16.shr (index t i) k = U16.shr (index t j) k -> i = j.
Proof.
  intros Hi Hj Heq. destruct Hsep as (_ & _ & Hnd).
  assert (Hn : Z.to_nat i = Z.to_nat j).
  { apply (NoDup_lookup _ _ _ (U16.shr (index t i) k) Hnd).
    - rewrite list_lookup_fmap, (sep_lookup i Hi). reflexivity.
    - rewrite list_lookup_fmap, (sep_lookup j Hj), Heq. reflexivity. }
  unfold fits in *. lia.
Qed.

Lemma sep_step_fits (s : Z) (v : byte) :
  U16.valid s -> fits (k + 8) (Update_step t s v).
Proof.
  intros Hs. pose proof sep_k as Hk. unfold Update_step, U16.xor.
  apply fits_lxor; [lia | apply sep_index_fits |].
  apply (fits_mono 8 (k + 8)); [lia|].
  apply (fits_shiftr 8 8); [lia | lia | exact Hs].
Qed.

Lemma sep_fits_valid (s : Z) : fits (k + 8) s -> U16.valid s.
Proof.
  pose proof sep_k as Hk. intros Hs.
  apply valid_fits. apply (fits_mono (k + 8) 16); [lia | exact Hs].
Qed.

(** From one state, two different bytes lead to two different states. *)
Lemma sep_step_inj_byte (s : Z) (v1 v2 : byte) :
  Update_step t s v1 = Update_step t s v2 -> v1 = v2.
Proof.
  unfold Update_step, U16.xor, U8.xor. intros H.
  apply lxor_cancel_r in H.
  apply (f_equal (fun x => U16.shr x k)) in H.
  apply sep_index_inj in H;
    try (apply fits_lxor; [lia | apply of_u16_fits | apply to_Z_fits]).
  apply lxor_cancel_l in H. apply to_Z_inj, H.
Qed.

(** When two steps from states of at most [k + 8] bits meet, they used the
    same table index and the states had the same high byte. *)
Lemma sep_step_inj_pair (s1 s2 : Z) (v1 v2 : byte) :
  fits (k + 8) s1 -> fits (k + 8) s2 ->
  Update_step t s1 v1 = Update_step t s2 v2 ->
  U8.xor (U8.of_u16 s1) (U8.to_Z v1) = U8.xor (U8.of_u16 s2) (U8.to_Z v2) /\
  U16.shr s1 8 = U16.shr s2 8.
Proof.
  intros H1 H2 H. pose proof sep_k as Hk.
  unfold Update_step, U16.xor in H.
  assert (Hhi : forall s, fits (k + 8) s -> Z.shiftr (U16.shr s 8) k = 0).
  { intros s Hs. apply shiftr_small; [lia|].
    apply (fits_shiftr k 8); [lia | lia | exact Hs]. }
  pose proof (f_equal (fun x => Z.shiftr x k) H) as Hk'. simpl in Hk'.
  rewrite !Z.shiftr_lxor, (Hhi s1 H1), (Hhi s2 H2), !Z.lxor_0_r in Hk'.
  apply sep_index_inj in Hk';
    try (apply fits_lxor; [lia | apply of_u16_fits | apply to_Z_fits]).
  split; [exact Hk'|].
  rewrite Hk' in H. apply lxor_cancel_l in H. exact H.
Qed.

(** On states of at most [k + 8] bits, one byte never merges two states. *)
Lemma sep_step_inj_state (s1 s2 : Z) (v : byte) :
  fits (k + 8) s1 -> fits (k + 8) s2 ->
  Update_step t s1 v = Update_step t s2 v -> s1 = s2.
Proof.
  intros H1 H2 H.
  destruct (sep_step_inj_pair s1 s2 v v H1 H2 H) as [Hlo Hhi].
  apply lxor_cancel_r in Hlo.
  unfold U16.shr in Hhi. rewrite !Z.shiftr_div_pow2 in Hhi by lia.
  unfold U8.of_u16, U8.modulus in Hlo.
  rewrite (Z.div_mod s1 (2 ^ 8)), (Z.div_mod s2 (2 ^ 8)) by lia.
  rewrite Hhi, Hlo. reflexivity.
Qed.

Lemma sep_loop_inj (p : list byte) (s1 s2 : Z) :
  fits (k + 8) s1 -> fits (k + 8) s2 ->
  Update_loop t s1 p = Update_loop t s2 p -> s1 = s2.
Proof.
  revert s1 s2. induction p as [|v p IH]; intros s1 s2 H1 H2 H.
  - exact H.
  - simpl in H. apply IH in H.
    + apply (sep_step_inj_state s1 s2 v H1 H2 H).
    + apply sep_step_fits, sep_fits_valid, H1.
    + apply sep_step_fits, sep_fits_valid, H2.
Qed.

Lemma sep_byte_change (c : Z) (pre suf : list byte) (v1 v2 : byte) :
  U16.valid c -> v1 <> v2 ->
  Update c t (pre ++ v1 :: suf) <> Update c t (pre ++ v2 :: suf).
Proof.
  intros Hc Hne Heq. apply Hne. unfold Update in Heq.
  apply not_inj in Heq. rewrite !Update_loop_app in Heq. simpl in Heq.
  assert (Hs : U16.valid (Update_loop t (U16.not c) pre)).
  { apply Update_loop_valid; [apply sep_valid | apply not_valid, Hc]. }
  apply sep_loop_inj in Heq; try (apply sep_step_fits, Hs).
  apply (sep_step_inj_byte _ _ _ Heq).
Qed.

End Separating_table.

Lemma ANSITable_separates : separates 8 ANSITable.
Proof. apply separatesb_spec. vm_compute. reflexivity. Qed.

Lemma CCITTTable_separates : separates 5 CCITTTable.
Proof. apply separatesb_spec. vm_compute. reflexivity. Qed.

Lemma ANSITable_length : length ANSITable = table_len.
Proof. reflexivity. Qed.

Lemma CCITTTable_length : length CCITTTable = table_len.
Proof. reflexivity. Qed.

(** X11: over a table that separates its indices, [Update] from any 16-bit
    [crc] tells apart two inputs that differ in exactly one byte, wherever
    that byte stands and whatever follows it. *)
Theorem Update_detects_byte_change
    (k : Z) (t : Table) (c : Z) (pre suf : list byte) (v1 v2 : byte) :
  separates k t -> length t = table_len -> U16.valid c -> v1 <> v2 ->
  Update c t (pre ++ v1 :: suf) <> Update c t (pre ++ v2 :: suf).
Proof. intros Hsep Hlen. apply (sep_byte_change k t Hsep Hlen). Qed.

Lemma Update_detects_byte_change_witness :
  separates 8 (makeTable ANSI_reversed) /\
  length (makeTable ANSI_reversed) = table_len /\
  U16.valid 0 /\ x35 <> x36 /\
  Update 0 (makeTable ANSI_reversed) ([x31; x32; x33; x34] ++ x35 :: [x36; x37])
    <> Update 0 (makeTable ANSI_reversed) ([x31; x32; x33; x34] ++ x36 :: [x36; x37]).
Proof.
  assert (Hsep : separates 8 (makeTable ANSI_reversed))
    by (apply separatesb_spec; vm_compute; reflexivity).
  assert (Hlen : length (makeTable ANSI_reversed) = table_len) by reflexivity.
  assert (Hc : U16.valid 0) by (apply validb_spec; vm_compute; reflexivity).
  assert (Hne : x35 <> x36) by discriminate.
  split; [exact Hsep|]. split; [exact Hlen|]. split; [exact Hc|].
  split; [exact Hne|].
  apply (Update_detects_byte_change 8 (makeTable ANSI_reversed) 0
           [x31; x32; x33; x34] [x36; x37] x35 x36 Hsep Hlen Hc Hne).
Defined.

(** X12: over a table whose entries have pairwise distinct high bytes,
    [Update] is injective in its [crc] argument: two different 16-bit
    starting values never give the same result on the same input. *)
Theorem Update_crc_injective (t : Table) (c1 c2 : Z) (p : list byte) :
  separates 8 t -> length t = table_len ->
  U16.valid c1 -> U16.valid c2 ->
  Update c1 t p = Update c2 t p -> c1 = c2.
Proof.
  intros Hsep Hlen H1 H2 H. unfold Update in H.
  apply not_inj, (sep_loop_inj 8 t Hsep Hlen) in H.
  - apply not_inj, H.
  - apply valid_fits, not_valid, H1.
  - apply valid_fits, not_valid, H2.
Qed.

Lemma Update_crc_injective_witness :
  separates 8 ANSITable /\ length ANSITable = table_len /\
  U16.valid 0xC284 /\ U16.valid (ChecksumANSI digits) /\
  Update 0xC284 ANSITable digits = Update (ChecksumANSI digits) ANSITable digits /\
  0xC284 = ChecksumANSI digits.
Proof.
  assert (Hsep : separates 8 ANSITable)
    by (apply separatesb_spec; vm_compute; reflexivity).
  assert (Hlen : length ANSITable = table_len) by reflexivity.
  assert (H1 : U16.valid 0xC284) by (apply validb_spec; vm_compute; reflexivity).
  assert (H2 : U16.valid (ChecksumANSI digits))
    by (apply validb_spec; vm_compute; reflexivity).
  assert (H : Update 0xC284 ANSITable digits
              = Update (ChecksumANSI digits) ANSITable digits)
    by (vm_compute; reflexivity).
  split; [exact Hsep|]. split; [exact Hlen|]. split; [exact H1|].
  split; [exact H2|]. split; [exact H|].
  apply (Update_crc_injective ANSITable 0xC284 (ChecksumANSI digits) digits
           Hsep Hlen H1 H2 H).
Defined.

(** X13: [ChecksumANSI] and [ChecksumCCITT] each give different results on
    two inputs that differ in exactly one byte. *)
Theorem named_checksums_detect_byte_change
    (pre suf : list byte) (v1 v2 : byte) :
  v1 <> v2 ->
  ChecksumANSI (pre ++ v1 :: suf) <> ChecksumANSI (pre ++ v2 :: suf) /\
  ChecksumCCITT (pre ++ v1 :: suf) <> ChecksumCCITT (pre ++ v2 :: suf).
Proof.
  intros Hne. unfold ChecksumANSI, ChecksumCCITT. split.
  - apply (sep_byte_change 8 ANSITable ANSITable_separates ANSITable_length);
      [exact valid_0 | exact Hne].
  - apply (sep_byte_change 5 CCITTTable CCITTTable_separates CCITTTable_length);
      [exact valid_0 | exact Hne].
Qed.

Lemma named_checksums_detect_byte_change_witness :
  x31 <> x39 /\
  ChecksumANSI ([x00; x31] ++ x31 :: digits)
    <> ChecksumANSI ([x00; x31] ++ x39 :: digits) /\
  ChecksumCCITT ([x00; x31] ++ x31 :: digits)
    <> ChecksumCCITT ([x00; x31] ++ x39 :: digits).
Proof.
  assert (Hne : x31 <> x39) by discriminate.
  split; [exact Hne|].
  apply (named_checksums_detect_byte_change [x00; x31] digits x31 x39 Hne).
Defined.

Lemma sep8_two_bytes
    (t : Table) (c : Z) (pre suf : list byte) (v1 w1 v2 w2 : byte) :
  separates 8 t -> length t = table_len -> U16.valid c ->
  Update c t (pre ++ v1 :: w1 :: suf) = Update c t (pre ++ v2 :: w2 :: suf) ->
  v1 = v2 /\ w1 = w2.
Proof.
  intros Hsep Hlen Hc Heq. unfold Update in Heq.
  apply not_inj in Heq. rewrite !Update_loop_app in Heq. simpl in Heq.
  assert (Hs : U16.valid (Update_loop t (U16.not c) pre)).
  { apply Update_loop_valid; [apply (sep_valid 8 t Hsep Hlen) | apply not_valid, Hc]. }
  revert Hs Heq. generalize (Update_loop t (U16.not c) pre). intros s Hs Heq.
  pose proof (sep_step_fits 8 t Hsep Hlen s v1 Hs) as F1.
  pose proof (sep_step_fits 8 t Hsep Hlen s v2 Hs) as F2.
  apply (sep_loop_inj 8 t Hsep Hlen) in Heq;
    try (apply (sep_step_fits 8 t Hsep Hlen), (sep_fits_valid 8 t Hsep Hlen);
         assumption).
  destruct (sep_step_inj_pair 8 t Hsep Hlen _ _ w1 w2 F1 F2 Heq) as [Hlo Hhi].
  assert (Hv : v1 = v2).
  { unfold Update_step, U16.xor, U16.shr in Hhi.
    rewrite !Z.shiftr_lxor in Hhi.
    rewrite (shiftr_small 8 (Z.shiftr s 8)) in Hhi
      by first [lia | apply (fits_shiftr 8 8); [lia | lia | exact Hs]].
    rewrite !Z.lxor_0_r in Hhi.
    apply (sep_index_inj 8 t Hsep Hlen) in Hhi;
      try (apply fits_lxor; [lia | apply of_u16_fits | apply to_Z_fits]).
    apply lxor_cancel_l in Hhi. apply to_Z_inj, Hhi. }
  split; [exact Hv|]. subst v2.
  apply lxor_cancel_l in Hlo. apply to_Z_inj, Hlo.
Qed.

(** X14: over a table whose entries have pairwise distinct high bytes, as
    [ANSITable] is, [Update] tells apart two inputs that differ only within
    two adjacent bytes: no change confined to a 16-bit window goes
    unnoticed. *)
Theorem Update_detects_two_byte_change
    (t : Table) (c : Z) (pre suf : list byte) (v1 w1 v2 w2 : byte) :
  separates 8 t -> length t = table_len -> U16.valid c ->
  (v1, w1) <> (v2, w2) ->
  Update c t (pre ++ v1 :: w1 :: suf) <> Update c t (pre ++ v2 :: w2 :: suf).
Proof.
  intros Hsep Hlen Hc Hne Heq. apply Hne.
  destruct (sep8_two_bytes t c pre suf v1 w1 v2 w2 Hsep Hlen Hc Heq) as [-> ->].
  reflexivity.
Qed.

Lemma Update_detects_two_byte_change_witness :
  separates 8 ANSITable /\ length ANSITable = table_len /\ U16.valid 0 /\
  (x31, x32) <> (x3d, xb3) /\
  Update 0 ANSITable ([x00] ++ x31 :: x32 :: digits)
    <> Update 0 ANSITable ([x00] ++ x3d :: xb3 :: digits).
Proof.
  assert (Hsep : separates 8 ANSITable)
    by (apply separatesb_spec; vm_compute; reflexivity).
  assert (Hlen : length ANSITable = table_len) by reflexivity.
  assert (Hc : U16.valid 0) by (apply validb_spec; vm_compute; reflexivity).
  assert (Hne : (x31, x32) <> (x3d, xb3)) by discriminate.
  split; [exact Hsep|]. split; [exact Hlen|]. split; [exact Hc|].
  split; [exact Hne|].
  apply (Update_detects_two_byte_change ANSITable 0 [x00] digits
           x31 x32 x3d xb3 Hsep Hlen Hc Hne).
Defined.

(** X15: over [CCITTTable], XOR-ing 0x0C into one byte and 0x81 into the
    next never changes the result of [Update], wherever the two bytes stand
    and whatever their values, the rest of the input and the starting [crc]
    are, although the input has changed. *)
Theorem CCITT_unseen_pattern (c : Z) (pre suf : list byte) (v w : byte) :
  Update c CCITTTable (pre ++ xor_byte v x0c :: xor_byte w x81 :: suf)
    = Update c CCITTTable (pre ++ v :: w :: suf) /\
  pre ++ xor_byte v x0c :: xor_byte w x81 :: suf <> pre ++ v :: w :: suf.
Proof.
  split.
  - unfold Update. f_equal. rewrite !Update_loop_app. 
    change (xor_byte v x0c :: xor_byte w x81 :: suf)
      with ([xor_byte v x0c; xor_byte w x81] ++ suf).
    change (v :: w :: suf) with ([v; w] ++ suf).
    rewrite !Update_loop_app. f_equal.
    generalize (Update_loop CCITTTable (U16.not c) pre). intros s.
    change [xor_byte v x0c; xor_byte w x81] with (xor_bytes [v; w] [x0c; x81]).
    rewrite <- (Z.lxor_0_r s) at 1.
    rewrite (Update_loop_lxor CCITTTable (makeTable_index_lxor CCITT))
      by reflexivity.
    change (Update_loop CCITTTable 0 [x0c; x81]) with 0.
    apply Z.lxor_0_r.
  - intros H. apply app_inv_head in H. injection H as H _.
    apply (f_equal U8.to_Z) in H. rewrite to_Z_xor_byte in H.
    rewrite <- (Z.lxor_0_r (U8.to_Z v)) in H at 2.
    apply lxor_cancel_l in H. discriminate H.
Qed.

(** X16: the entries of [CCITTTable] have at most 13 bits, so on every
    non-empty input [ChecksumCCITT] returns a value with its three top bits
    set: a result between 0xE000 and 0xFFFF. *)
Theorem ChecksumCCITT_range (data : list byte) :
  data <> [] -> 0xE000 <= ChecksumCCITT data <= 0xFFFF.
Proof.
  intros Hne. destruct data as [|v data _] using rev_ind; [congruence|].
  unfold ChecksumCCITT, Update. rewrite Update_loop_app. simpl.
  assert (Hs : U16.valid (Update_loop CCITTTable (U16.not 0) data)).
  { apply Update_loop_valid; [|apply not_valid, valid_0].
    apply (sep_valid 5 CCITTTable CCITTTable_separates CCITTTable_length). }
  pose proof (sep_step_fits 5 CCITTTable CCITTTable_separates CCITTTable_length
                _ v Hs) as Hr.
  rewrite not_sub
    by (apply (sep_fits_valid 5 CCITTTable CCITTTable_separates CCITTTable_length), Hr).
  unfold fits in Hr. change (2 ^ (5 + 8)) with 8192 in Hr. lia.
Qed.

Lemma ChecksumCCITT_range_witness :
  digits <> [] /\ 0xE000 <= ChecksumCCITT digits <= 0xFFFF.
Proof.
  assert (Hne : digits <> []) by discriminate.
  split; [exact Hne|]. apply (ChecksumCCITT_range digits Hne).
Defined.

(** ** Verifying a message that carries its checksum *)

(** X17: appending the checksum to the input, low byte first, and running
    [Update] over the whole from the same [crc] gives a value that depends
    on the table only: the result of [Update] from 0xFFFF on two 0xFF bytes.
    A receiver can check a message by comparing against that constant. *)
Theorem Update_residue (t : Table) (c : Z) (data : list byte) :
  wf_table t -> U16.valid c ->
  Update c t (data ++ [U8.byte_of (Update c t data);
                       U8.byte_of (U16.shr (Update c t data) 8)])
    = Update 0xFFFF t [xff; xff].
Proof.
  intros [_ Ht] Hc. unfold Update. f_equal.
  rewrite Update_loop_app.
  assert (Hs : U16.valid (Update_loop t (U16.not c) data))
    by (apply Update_loop_valid; [exact Ht | apply not_valid, Hc]).
  revert Hs. generalize (Update_loop t (U16.not c) data). intros s Hs.
  assert (Hn : U16.valid (U16.not s)) by (apply not_valid, Hs).
  assert (Hh : fits 8 (Z.shiftr s 8))
    by (apply (fits_shiftr 8 8); [lia | lia | exact Hs]).
  assert (Hnh : fits 8 (Z.shiftr (U16.not s) 8))
    by (apply (fits_shiftr 8 8); [lia | lia | exact Hn]).
  assert (E1 : Update_step t s (U8.byte_of (U16.not s))
               = Z.lxor (index t 255) (Z.shiftr s 8)).
  { unfold Update_step, U16.xor, U16.shr, U8.xor. rewrite to_Z_byte_of.
    change (U16.not s mod 256) with (U8.of_u16 (U16.not s)).
    rewrite <- of_u16_lxor. unfold U16.not.
    replace (Z.lxor s (Z.lxor U16.mask s)) with U16.mask
      by (generalize U16.mask; intros m; lxor_bits).
    reflexivity. }
  assert (E0 : Update_step t (U16.not 0xFFFF) xff = index t 255).
  { unfold Update_step, U16.xor. change (U16.shr (U16.not 0xFFFF) 8) with 0.
    rewrite Z.lxor_0_r. reflexivity. }
  simpl Update_loop. rewrite E1, E0.
  unfold Update_step, U16.xor, U16.shr, U8.xor.
  rewrite to_Z_byte_of, (Z.mod_small _ 256) by exact Hnh.
  rewrite of_u16_lxor, !Z.shiftr_lxor.
  rewrite (shiftr_small 8 (Z.shiftr s 8)) by (lia || exact Hh).
  rewrite Z.lxor_0_r.
  unfold U16.not. rewrite Z.shiftr_lxor.
  replace (U8.of_u16 (Z.shiftr s 8)) with (Z.shiftr s 8)
    by (symmetry; apply Z.mod_small, Hh).
  change (Z.shiftr U16.mask 8) with 255. change (U8.to_Z xff) with 255.
  f_equal. f_equal.
  generalize (U8.of_u16 (index t 255)). generalize (Z.shiftr s 8).
  generalize 255. intros m h a. lxor_bits.
Qed.

Lemma Update_residue_witness :
  wf_table ANSITable /\ U16.valid 0 /\
  Update 0 ANSITable (digits ++ [U8.byte_of (Update 0 ANSITable digits);
                                 U8.byte_of (U16.shr (Update 0 ANSITable digits) 8)])
    = Update 0xFFFF ANSITable [xff; xff].
Proof.
  assert (Ht : wf_table ANSITable) by (apply wf_tableb_spec; vm_compute; reflexivity).
  assert (Hc : U16.valid 0) by (apply validb_spec; vm_compute; reflexivity).
  split; [exact Ht|]. split; [exact Hc|].
  apply (Update_residue ANSITable 0 digits Ht Hc).
Defined.
